(** * Table catalog and configuration registry of package [kv]

    A shallow embedding of [internal/kv/tables.go]: the table-name constants,
    the per-catalog table lists, the configuration maps, [sortBuckets] and
    [reinit], followed by the properties of the schema layer.

    Go data is modelled as follows.
    - [string] is Rocq's [string] (a sequence of bytes); [strings.Compare] is
      the byte-wise lexicographic comparison.
    - [[]string] is [list string]; [[]byte] is [list byte].
    - [map[string]TableCfgItem] is [gmap string TableCfgItem].
    - [uint] fields are [N], [int] fields are [Z] (no arithmetic is performed
      on them by this file, so no wrap-around is involved).
    - the package-level variables are the fields of one record, [Globals],
      which [sortBuckets] and [reinit] pass along explicitly. *)

From Stdlib Require Import ZArith NArith List Sorting.Sorted Sorting.Permutation.
From Stdlib Require Import Strings.String Strings.Ascii Strings.Byte.
From stdpp Require Import base option list gmap strings sorting fin_maps.

Local Open Scope Z_scope.

(** ** Table names *)

Definition PlainState := "PlainState".
Definition PlainContractCode := "PlainCodeHash".
Definition AccountChangeSet := "AccountChangeSet".
Definition StorageChangeSet := "StorageChangeSet".
Definition HashedAccounts := "HashedAccount".
Definition HashedStorage := "HashedStorage".
Definition AccountsHistory := "AccountHistory".
Definition StorageHistory := "StorageHistory".
Definition Code := "Code".
Definition ContractCode := "HashedCodeHash".
Definition IncarnationMap := "IncarnationMap".
Definition ContractTEVMCode := "TEVMCode".
Definition TrieOfAccounts := "TrieAccount".
Definition TrieOfStorage := "TrieStorage".
Definition DatabaseInfo := "DbInfo".
Definition HeaderNumber := "HeaderNumber".
Definition HeaderCanonical := "CanonicalHeader".
Definition Headers := "Header".
Definition HeaderTD := "HeadersTotalDifficulty".
Definition BlockBody := "BlockBody".
Definition EthTx := "BlockTransaction".
Definition NonCanonicalTxs := "NonCanonicalTransaction".
Definition Receipts := "Receipt".
Definition Log := "TransactionLog".
Definition LogTopicIndex := "LogTopicIndex".
Definition LogAddressIndex := "LogAddressIndex".
Definition CallTraceSet := "CallTraceSet".
Definition CallFromIndex := "CallFromIndex".
Definition CallToIndex := "CallToIndex".
Definition CumulativeGasIndex := "CumulativeGasIndex".
Definition CumulativeTransactionIndex := "CumulativeTransactionIndex".
Definition TxLookup := "BlockTransactionLookup".
Definition ConfigTable := "Config".
Definition SyncStageProgress := "SyncStage".
Definition Clique := "Clique".
Definition CliqueSeparate := "CliqueSeparate".
Definition CliqueSnapshot := "CliqueSnapshot".
Definition CliqueLastSnapshot := "CliqueLastSnapshot".
Definition ParliaSnapshot := "ParliaSnapshot".
Definition CurrentExecutionPayload := "CurrentExecutionPayload".
Definition NodeRecords := "NodeRecord".
Definition Inodes := "Inode".
Definition Senders := "TxSender".
Definition HeadBlockKey := "LastBlock".
Definition HeadHeaderKey := "LastHeader".
Definition LastForkchoice := "LastForkchoice".
Definition TransitionBlockKey := "TransitionBlock".
Definition Migrations := "Migration".
Definition Sequence := "Sequence".
Definition Epoch := "DevEpoch".
Definition PendingEpoch := "DevPendingEpoch".
Definition Issuance := "Issuance".
Definition StateAccounts := "StateAccounts".
Definition StateStorage := "StateStorage".
Definition StateCode := "StateCode".
Definition StateCommitment := "StateCommitment".
Definition BorReceipts := "BorReceipt".
Definition BorTxLookup := "BlockBorTransactionLookup".
Definition BorSeparate := "BorSeparate".
Definition BittorrentCompletion := "BittorrentCompletion".
Definition BittorrentInfo := "BittorrentInfo".
Definition AccountKeys := "AccountKeys".
Definition AccountVals := "AccountVals".
Definition AccountHistoryKeys := "AccountHistoryKeys".
Definition AccountHistoryVals := "AccountHistoryVals".
Definition AccountSettings := "AccountSettings".
Definition AccountIdx := "AccountIdx".
Definition StorageKeys := "StorageKeys".
Definition StorageVals := "StorageVals".
Definition StorageHistoryKeys := "StorageHistoryKeys".
Definition StorageHistoryVals := "StorageHistoryVals".
Definition StorageSettings := "StorageSettings".
Definition StorageIdx := "StorageIdx".
Definition CodeKeys := "CodeKeys".
Definition CodeVals := "CodeVals".
Definition CodeHistoryKeys := "CodeHistoryKeys".
Definition CodeHistoryVals := "CodeHistoryVals".
Definition CodeSettings := "CodeSettings".
Definition CodeIdx := "CodeIdx".
Definition LogAddressKeys := "LogAddressKeys".
Definition LogAddressIdx := "LogAddressIdx".
Definition LogTopicsKeys := "LogTopicsKeys".
Definition LogTopicsIdx := "LogTopicsIdx".
Definition TracesFromKeys := "TracesFromKeys".
Definition TracesFromIdx := "TracesFromIdx".
Definition TracesToKeys := "TracesToKeys".
Definition TracesToIdx := "TracesToIdx".
Definition Snapshots := "Snapshots".
Definition RAccountKeys := "RAccountKeys".
Definition RAccountIdx := "RAccountIdx".
Definition RStorageKeys := "RStorageKeys".
Definition RStorageIdx := "RStorageIdx".
Definition RCodeKeys := "RCodeKeys".
Definition RCodeIdx := "RCodeIdx".
Definition PlainStateR := "PlainStateR".
Definition CodeR := "CodeR".
Definition PlainContractR := "PlainContractR".
Definition XAccount := "XAccount".
Definition XStorage := "XStorage".
Definition XCode := "XCode".
Definition RecentLocalTransaction := "RecentLocalTransaction".
Definition PoolTransaction := "PoolTransaction".
Definition PoolInfo := "PoolInfo".

(** ** Flags and configuration entries *)

(** [type TableFlags uint] with its six constants. *)
Definition TableFlags := N.

Definition Default : TableFlags := 0x00%N.
Definition DupSort : TableFlags := 0x04%N.

(** [type TableCfgItem struct]; the field [DBI] has Go type [DBI], a [uint]. *)
Record TableCfgItem := mkTableCfgItem {
  Flags : TableFlags;
  AutoDupSortKeysConversion : bool;
  IsDeprecated : bool;
  DBI : N;
  DupFromLen : Z;
  DupToLen : Z
}.

#[global] Instance TableCfgItem_eq_dec : EqDecision TableCfgItem.
Proof. solve_decision. Defined.

(** The zero value [TableCfgItem{}]. *)
Definition zero_TableCfgItem : TableCfgItem :=
  mkTableCfgItem Default false false 0%N 0 0.

#[global] Instance TableCfgItem_inhabited : Inhabited TableCfgItem :=
  populate zero_TableCfgItem.

(** A composite literal that sets only [Flags], as in [{Flags: DupSort}]. *)
Definition flags_only (f : TableFlags) : TableCfgItem :=
  mkTableCfgItem f false false 0%N 0 0.

(** [tmp.IsDeprecated = true] on a copy of an entry. *)
Definition set_IsDeprecated (b : bool) (c : TableCfgItem) : TableCfgItem :=
  mkTableCfgItem (Flags c) (AutoDupSortKeysConversion c) b (DBI c)
                 (DupFromLen c) (DupToLen c).

(** [type TableCfg map[string]TableCfgItem]. *)
Abbreviation TableCfg := (gmap string TableCfgItem).

(** ** Package-level variables *)

Record Globals := mkGlobals {
  ChaindataTables : list string;
  TxPoolTables : list string;
  SentryTables : list string;
  DownloaderTables : list string;
  ReconTables : list string;
  ChaindataDeprecatedTables : list string;
  ChaindataTablesCfg : TableCfg;
  TxpoolTablesCfg : TableCfg;
  SentryTablesCfg : TableCfg;
  DownloaderTablesCfg : TableCfg;
  ReconTablesCfg : TableCfg
}.

(** The initialiser of [var ChaindataTables]. *)
Definition ChaindataTables_decl : list string := [
  AccountsHistory; StorageHistory; Code; ContractCode; HeaderNumber;
  BlockBody; Receipts; TxLookup; ConfigTable; CurrentExecutionPayload;
  DatabaseInfo; IncarnationMap; ContractTEVMCode; CliqueSeparate;
  CliqueLastSnapshot; CliqueSnapshot; ParliaSnapshot; SyncStageProgress;
  PlainState; PlainContractCode; AccountChangeSet; StorageChangeSet;
  Senders; HeadBlockKey; HeadHeaderKey; LastForkchoice; Migrations;
  LogTopicIndex; LogAddressIndex; CallTraceSet; CallFromIndex; CallToIndex;
  CumulativeGasIndex; CumulativeTransactionIndex; Log; Sequence; EthTx;
  NonCanonicalTxs; TrieOfAccounts; TrieOfStorage; HashedAccounts;
  HashedStorage; HeaderCanonical; Headers; HeaderTD; Epoch; PendingEpoch;
  Issuance; StateAccounts; StateStorage; StateCode; StateCommitment;
  BorReceipts; BorTxLookup; BorSeparate;
  AccountKeys; AccountVals; AccountHistoryKeys; AccountHistoryVals;
  AccountSettings; AccountIdx;
  StorageKeys; StorageVals; StorageHistoryKeys; StorageHistoryVals;
  StorageSettings; StorageIdx;
  CodeKeys; CodeVals; CodeHistoryKeys; CodeHistoryVals; CodeSettings; CodeIdx;
  LogAddressKeys; LogAddressIdx; LogTopicsKeys; LogTopicsIdx;
  TracesFromKeys; TracesFromIdx; TracesToKeys; TracesToIdx;
  Snapshots;
  RAccountKeys; RAccountIdx; RStorageKeys; RStorageIdx; RCodeKeys; RCodeIdx
].

Definition TxPoolTables_decl : list string :=
  [RecentLocalTransaction; PoolTransaction; PoolInfo].
Definition SentryTables_decl : list string := [].
Definition DownloaderTables_decl : list string :=
  [BittorrentCompletion; BittorrentInfo].
Definition ReconTables_decl : list string :=
  [XAccount; XStorage; XCode; PlainStateR; CodeR; PlainContractR].

Definition ChaindataDeprecatedTables_decl : list string :=
  [Clique; TransitionBlockKey].

(** The initialiser of [var ChaindataTablesCfg], entry by entry in the order
    of the composite literal. *)
Definition ChaindataTablesCfg_entries : list (string * TableCfgItem) := [
  (HashedStorage, mkTableCfgItem DupSort true false 0%N 72 40);
  (AccountChangeSet, flags_only DupSort);
  (StorageChangeSet, flags_only DupSort);
  (PlainState, mkTableCfgItem DupSort true false 0%N 60 28);
  (CallTraceSet, flags_only DupSort);
  (AccountKeys, flags_only DupSort);
  (AccountHistoryKeys, flags_only DupSort);
  (AccountIdx, flags_only DupSort);
  (StorageKeys, flags_only DupSort);
  (StorageHistoryKeys, flags_only DupSort);
  (StorageIdx, flags_only DupSort);
  (CodeKeys, flags_only DupSort);
  (CodeHistoryKeys, flags_only DupSort);
  (CodeIdx, flags_only DupSort);
  (LogAddressKeys, flags_only DupSort);
  (LogAddressIdx, flags_only DupSort);
  (LogTopicsKeys, flags_only DupSort);
  (LogTopicsIdx, flags_only DupSort);
  (TracesFromKeys, flags_only DupSort);
  (TracesFromIdx, flags_only DupSort);
  (TracesToKeys, flags_only DupSort);
  (TracesToIdx, flags_only DupSort);
  (RAccountKeys, flags_only DupSort);
  (RAccountIdx, flags_only DupSort);
  (RStorageKeys, flags_only DupSort);
  (RStorageIdx, flags_only DupSort);
  (RCodeKeys, flags_only DupSort);
  (RCodeIdx, flags_only DupSort)
].

Definition ChaindataTablesCfg_decl : TableCfg :=
  list_to_map ChaindataTablesCfg_entries.

(** The package-level variables as the declarations leave them, before
    [init] runs. *)
Definition declared : Globals := {|
  ChaindataTables := ChaindataTables_decl;
  TxPoolTables := TxPoolTables_decl;
  SentryTables := SentryTables_decl;
  DownloaderTables := DownloaderTables_decl;
  ReconTables := ReconTables_decl;
  ChaindataDeprecatedTables := ChaindataDeprecatedTables_decl;
  ChaindataTablesCfg := ChaindataTablesCfg_decl;
  TxpoolTablesCfg := ∅;
  SentryTablesCfg := ∅;
  DownloaderTablesCfg := ∅;
  ReconTablesCfg := ∅
|}.

(** ** Sorting *)

(** [strings.Compare(a, b)]: -1, 0 or +1 by byte-wise lexicographic order. *)
Definition strings_Compare (a b : string) : Z :=
  match String.compare a b with
  | Lt => -1
  | Eq => 0
  | Gt => 1
  end.

(** The [less] closure handed to [sort.SliceStable] by [sortBuckets],
    on the two elements it indexes. *)
Definition less (a b : string) : bool := strings_Compare a b <? 0.

(** [sort.SliceStable(s, less)]: the library routine returns the stable
    rearrangement of [s] ordered by [less]. It is modelled by the stable
    insertion sort, which computes that same rearrangement: an element is
    placed before the first element of the sorted tail that is not strictly
    smaller, so elements that compare equal keep their relative order. *)
Fixpoint stable_insert {A} (lt : A → A → bool) (x : A) (l : list A) : list A :=
  match l with
  | [] => [x]
  | y :: l' => if lt y x then y :: stable_insert lt x l' else x :: y :: l'
  end.

Fixpoint sort_SliceStable {A} (lt : A → A → bool) (l : list A) : list A :=
  match l with
  | [] => []
  | x :: l' => stable_insert lt x (sort_SliceStable lt l')
  end.

(** [func sortBuckets()]: sorts [ChaindataTables] in place and touches no
    other variable. *)
Definition sortBuckets (g : Globals) : Globals := {|
  ChaindataTables := sort_SliceStable less (ChaindataTables g);
  TxPoolTables := TxPoolTables g;
  SentryTables := SentryTables g;
  DownloaderTables := DownloaderTables g;
  ReconTables := ReconTables g;
  ChaindataDeprecatedTables := ChaindataDeprecatedTables g;
  ChaindataTablesCfg := ChaindataTablesCfg g;
  TxpoolTablesCfg := TxpoolTablesCfg g;
  SentryTablesCfg := SentryTablesCfg g;
  DownloaderTablesCfg := DownloaderTablesCfg g;
  ReconTablesCfg := ReconTablesCfg g
|}.

(** ** Initialisation *)

(** Body of the default-filling loops:
    [_, ok := cfg[name]; if !ok { cfg[name] = TableCfgItem{} }]. *)
Definition fill_default (cfg : TableCfg) (name : string) : TableCfg :=
  match cfg !! name with
  | Some _ => cfg
  | None => <[name := zero_TableCfgItem]> cfg
  end.

(** Body of the loop over [ChaindataDeprecatedTables]: fill the default,
    then [tmp := cfg[name]; tmp.IsDeprecated = true; cfg[name] = tmp].
    Indexing a Go map at an absent key yields the zero value. *)
Definition mark_deprecated (cfg : TableCfg) (name : string) : TableCfg :=
  let cfg1 := fill_default cfg name in
  let tmp := default zero_TableCfgItem (cfg1 !! name) in
  <[name := set_IsDeprecated true tmp]> cfg1.

(** [for _, name := range names { ... }] over a map. *)
Definition fill_defaults (names : list string) (cfg : TableCfg) : TableCfg :=
  foldl fill_default cfg names.

Definition mark_all_deprecated (names : list string) (cfg : TableCfg) : TableCfg :=
  foldl mark_deprecated cfg names.

(** [func reinit()]. *)
Definition reinit (g : Globals) : Globals :=
  let g1 := sortBuckets g in
  {|
    ChaindataTables := ChaindataTables g1;
    TxPoolTables := TxPoolTables g1;
    SentryTables := SentryTables g1;
    DownloaderTables := DownloaderTables g1;
    ReconTables := ReconTables g1;
    ChaindataDeprecatedTables := ChaindataDeprecatedTables g1;
    ChaindataTablesCfg :=
      mark_all_deprecated (ChaindataDeprecatedTables g1)
        (fill_defaults (ChaindataTables g1) (ChaindataTablesCfg g1));
    TxpoolTablesCfg := fill_defaults (TxPoolTables g1) (TxpoolTablesCfg g1);
    SentryTablesCfg := fill_defaults (SentryTables g1) (SentryTablesCfg g1);
    DownloaderTablesCfg :=
      fill_defaults (DownloaderTables g1) (DownloaderTablesCfg g1);
    ReconTablesCfg := fill_defaults (ReconTables g1) (ReconTablesCfg g1)
  |}.

(** [func init()] runs [reinit] once on the declared variables. *)
Definition init : Globals := reinit declared.

(** ** Catalogs *)

(** The five catalogs, each with its table list and its configuration map. *)
Inductive Catalog := Chaindata | TxPool | Sentry | Downloader | Recon.

Definition tables_of (g : Globals) (c : Catalog) : list string :=
  match c with
  | Chaindata => ChaindataTables g
  | TxPool => TxPoolTables g
  | Sentry => SentryTables g
  | Downloader => DownloaderTables g
  | Recon => ReconTables g
  end.

Definition cfg_of (g : Globals) (c : Catalog) : TableCfg :=
  match c with
  | Chaindata => ChaindataTablesCfg g
  | TxPool => TxpoolTablesCfg g
  | Sentry => SentryTablesCfg g
  | Downloader => DownloaderTablesCfg g
  | Recon => ReconTablesCfg g
  end.

(** The deprecated list of a catalog: only chain-data has one. *)
Definition deprecated_of (g : Globals) (c : Catalog) : list string :=
  match c with
  | Chaindata => ChaindataDeprecatedTables g
  | _ => []
  end.

(** Number of entries a configuration map holds under a given name. *)
Definition entries_named (name : string) (cfg : TableCfg) : nat :=
  length (filter (λ p, p.1 = name) (map_to_list cfg)).

(** Byte-wise ascending order of a name list, in terms of [strings.Compare]. *)
Definition bytewise_le (a b : string) : Prop := strings_Compare a b ≤ 0.

Definition ascending (l : list string) : Prop := StronglySorted bytewise_le l.

(** ** DupSort codec *)

(** Go slice expressions [s[lo:]] and [s[:hi]] on a slice whose capacity is
    its length; they panic ([None]) when the bound is out of range. *)
Definition slice_from {A} (s : list A) (lo : Z) : option (list A) :=
  if decide (0 ≤ lo ≤ Z.of_nat (length s))
  then Some (drop (Z.to_nat lo) s) else None.

Definition slice_to {A} (s : list A) (hi : Z) : option (list A) :=
  if decide (0 ≤ hi ≤ Z.of_nat (length s))
  then Some (take (Z.to_nat hi) s) else None.

(** Modelled from the spec: the codec function [encode] is not part of
    [tables.go], which only declares the fields that parameterise it. It
    follows section 4.3 of the specification and the comment on [DupFromLen]
    ([v = append(k[DupToLen:], v...); k = k[:DupToLen]]): identity without
    conversion, the split for a key of length [DupFromLen], and the
    unchanged pair for any other key length. *)
Definition encode (cfg : TableCfgItem) (key value : list byte)
  : option (list byte * list byte) :=
  if AutoDupSortKeysConversion cfg
     && bool_decide (Z.of_nat (length key) = DupFromLen cfg)
  then
    v ← slice_from key (DupToLen cfg);
    k ← slice_to key (DupToLen cfg);
    Some (k, v ++ value)
  else Some (key, value).

(** Modelled from the spec: the codec function [decode] is not part of
    [tables.go]. It follows section 4.3 of the specification: the logical key
    is the physical key followed by the first [DupFromLen - DupToLen] bytes
    of the physical value, the logical value is the remainder. Without
    conversion it is the identity, and (section 7) a physical key whose
    length is not [DupToLen] is passed through unchanged. *)
Definition decode (cfg : TableCfgItem) (physicalKey physicalValue : list byte)
  : option (list byte * list byte) :=
  if AutoDupSortKeysConversion cfg
     && bool_decide (Z.of_nat (length physicalKey) = DupToLen cfg)
  then
    let width := DupFromLen cfg - DupToLen cfg in
    suffix ← slice_to physicalValue width;
    rest ← slice_from physicalValue width;
    Some (physicalKey ++ suffix, rest)
  else Some (physicalKey, physicalValue).

(** The invariant of a configuration entry:
    [DupFromLen >= DupToLen >= 0] when conversion is enabled. *)
Definition dup_lens_ok (cfg : TableCfgItem) : Prop :=
  AutoDupSortKeysConversion cfg = true → 0 ≤ DupToLen cfg ≤ DupFromLen cfg.

(** ** Auxiliary definitions for the statements *)

(** The entry [reinit] leaves under [k] before deprecation is applied: the
    existing one, or the zero value when [k] is a declared table. *)
Definition filled_entry (g : Globals) (c : Catalog) (k : string) : option TableCfgItem :=
  match cfg_of g c !! k with
  | Some e => Some e
  | None => if decide (k ∈ tables_of g c) then Some zero_TableCfgItem else None
  end.


(** The entries of [PlainState] and [HashedStorage] in [ChaindataTablesCfg]. *)
Definition PlainState_cfg : TableCfgItem := mkTableCfgItem DupSort true false 0%N 60 28.
Definition HashedStorage_cfg : TableCfgItem := mkTableCfgItem DupSort true false 0%N 72 40.

(** The property that every name's [DBI] is its position in its table list. *)
Definition ordinals_assigned (g : Globals) : Prop :=
  ∀ c i name e,
    tables_of g c !! i = Some name → cfg_of g c !! name = Some e →
    DBI e = N.of_nat i.

(** A state that [reinit] has nothing left to do on: [ChaindataTables] is in
    ascending order, every listed name has an entry, and every deprecated
    name has an entry that is flagged. *)
Definition normalised (g : Globals) : Prop :=
  ascending (ChaindataTables g) ∧
  (∀ c name, name ∈ tables_of g c → is_Some (cfg_of g c !! name)) ∧
  (∀ name, name ∈ ChaindataDeprecatedTables g →
     ∃ e, ChaindataTablesCfg g !! name = Some e ∧ IsDeprecated e = true).

(** Strictly ascending byte-wise order. *)
Definition bytewise_lt (a b : string) : Prop := strings_Compare a b < 0.

Definition strictly_ascending (l : list string) : Prop := StronglySorted bytewise_lt l.



(** * Properties *)

(** ** The codec *)

Section codec.
Context (cfg : TableCfgItem).

Lemma slice_from_Some {A} (s : list A) (lo : Z) :
  0 ≤ lo ≤ Z.of_nat (length s) → slice_from s lo = Some (drop (Z.to_nat lo) s).
Proof. intros H. unfold slice_from. by rewrite decide_True. Qed.

Lemma slice_to_Some {A} (s : list A) (hi : Z) :
  0 ≤ hi ≤ Z.of_nat (length s) → slice_to s hi = Some (take (Z.to_nat hi) s).
Proof. intros H. unfold slice_to. by rewrite decide_True. Qed.

Lemma encode_disabled key value :
  AutoDupSortKeysConversion cfg = false → encode cfg key value = Some (key, value).
Proof. intros H. unfold encode. by rewrite H. Qed.

Lemma encode_other_length key value :
  Z.of_nat (length key) ≠ DupFromLen cfg → encode cfg key value = Some (key, value).
Proof.
  intros H. unfold encode. rewrite bool_decide_eq_false_2 by done.
  by rewrite andb_false_r.
Qed.

Lemma encode_split key value :
  AutoDupSortKeysConversion cfg = true →
  0 ≤ DupToLen cfg ≤ DupFromLen cfg →
  Z.of_nat (length key) = DupFromLen cfg →
  encode cfg key value =
    Some (take (Z.to_nat (DupToLen cfg)) key,
          drop (Z.to_nat (DupToLen cfg)) key ++ value).
Proof.
  intros Hon Hlens Hlen. unfold encode.
  rewrite Hon, bool_decide_eq_true_2 by done. cbn [andb].
  rewrite slice_from_Some, slice_to_Some by lia. done.
Qed.

Lemma decode_disabled k v :
  AutoDupSortKeysConversion cfg = false → decode cfg k v = Some (k, v).
Proof. intros H. unfold decode. by rewrite H. Qed.

Lemma decode_encode key value :
  AutoDupSortKeysConversion cfg = true →
  0 ≤ DupToLen cfg ≤ DupFromLen cfg →
  Z.of_nat (length key) = DupFromLen cfg →
  encode cfg key value ≫= (λ kv, decode cfg kv.1 kv.2) = Some (key, value).
Proof.
  intros Hon Hlens Hlen. rewrite encode_split by done. cbn [mbind option_bind fst snd].
  set (to := Z.to_nat (DupToLen cfg)).
  assert (Hto : (to ≤ length key)%nat) by (subst to; lia).
  assert (Hdrop : length (drop to key) = Z.to_nat (DupFromLen cfg - DupToLen cfg)).
  { rewrite length_drop. subst to. lia. }
  unfold decode. rewrite Hon.
  rewrite bool_decide_eq_true_2 by (rewrite length_take; subst to; lia).
  cbn [andb].
  rewrite slice_to_Some, slice_from_Some by (rewrite length_app; lia).
  cbn [mbind option_bind].
  rewrite <- Hdrop, take_app_length, drop_app_length, take_drop. done.
Qed.
End codec.

(** ** Sorting *)

Section sorting.
Lemma bytewise_le_String_le a b : bytewise_le a b ↔ String.le a b.
Proof.
  unfold bytewise_le, strings_Compare, String.le, String.leb.
  destruct (String.compare a b); simpl; split; intros; try done; lia.
Qed.

#[global] Instance bytewise_le_trans : Transitive bytewise_le.
Proof.
  intros a b c. rewrite !bytewise_le_String_le. apply (transitivity (R:=String.le)).
Qed.

#[global] Instance bytewise_le_antisymm : AntiSymm (=) bytewise_le.
Proof.
  intros a b. rewrite !bytewise_le_String_le. apply (anti_symm String.le).
Qed.

Lemma less_true a b : less a b = true → bytewise_le a b.
Proof. unfold less, bytewise_le. intros H%Z.ltb_lt. lia. Qed.

Lemma less_false a b : less a b = false → bytewise_le b a.
Proof.
  unfold less, bytewise_le, strings_Compare.
  rewrite (String.compare_antisym b a).
  destruct (String.compare a b); simpl; intros H%Z.ltb_ge; lia.
Qed.

Lemma stable_insert_perm {A} (lt : A → A → bool) x l :
  stable_insert lt x l ≡ₚ x :: l.
Proof.
  induction l as [|y l IH]; simpl; [done|].
  destruct (lt y x); [|done].
  rewrite IH. apply Permutation_swap.
Qed.

Lemma sort_SliceStable_perm {A} (lt : A → A → bool) l :
  sort_SliceStable lt l ≡ₚ l.
Proof.
  induction l as [|x l IH]; simpl; [done|].
  by rewrite stable_insert_perm, IH.
Qed.

Lemma stable_insert_ascending x l :
  ascending l → ascending (stable_insert less x l).
Proof.
  unfold ascending. induction l as [|y l IH]; simpl; intros Hl.
  - by repeat constructor.
  - apply StronglySorted_cons in Hl as [Hy Hl].
    destruct (less y x) eqn:Hyx.
    + apply StronglySorted_cons. split; [|by apply IH].
      rewrite stable_insert_perm. constructor; [by apply less_true|done].
    + apply less_false in Hyx.
      apply StronglySorted_cons. split.
      * constructor; [done|].
        eapply Forall_impl; [exact Hy|]. intros z Hz. by etrans.
      * by apply StronglySorted_cons.
Qed.

Lemma sort_SliceStable_ascending l : ascending (sort_SliceStable less l).
Proof.
  induction l as [|x l IH]; simpl; [constructor|].
  by apply stable_insert_ascending.
Qed.

Lemma ascending_perm_eq l1 l2 : ascending l1 → ascending l2 → l1 ≡ₚ l2 → l1 = l2.
Proof. apply StronglySorted_unique, _. Qed.


Lemma sort_SliceStable_ascending_id l :
  ascending l → sort_SliceStable less l = l.
Proof.
  intros Hl. apply ascending_perm_eq; [apply sort_SliceStable_ascending|done|].
  apply sort_SliceStable_perm.
Qed.

Lemma sort_SliceStable_idemp l :
  sort_SliceStable less (sort_SliceStable less l) = sort_SliceStable less l.
Proof. apply sort_SliceStable_ascending_id, sort_SliceStable_ascending. Qed.

Lemma elem_of_sort_SliceStable (x : string) l :
  x ∈ sort_SliceStable less l ↔ x ∈ l.
Proof. by rewrite sort_SliceStable_perm. Qed.
End sorting.

(** ** The default-filling and deprecation loops *)

Section loops.
Implicit Types (cfg : TableCfg) (name k : string) (names : list string).

Lemma set_IsDeprecated_idemp b e :
  set_IsDeprecated b (set_IsDeprecated b e) = set_IsDeprecated b e.
Proof. done. Qed.

Lemma set_IsDeprecated_id e :
  IsDeprecated e = true → set_IsDeprecated true e = e.
Proof. destruct e; simpl; by intros ->. Qed.

Lemma lookup_fill_default cfg name k :
  fill_default cfg name !! k =
    match cfg !! k with
    | Some e => Some e
    | None => if decide (k = name) then Some zero_TableCfgItem else None
    end.
Proof.
  unfold fill_default. destruct (cfg !! name) eqn:Hn.
  - destruct (cfg !! k) eqn:Hk; [done|]. case_decide; congruence.
  - destruct (decide (k = name)) as [->|Hne].
    + by rewrite lookup_insert_eq, Hn.
    + rewrite lookup_insert_ne by done. by destruct (cfg !! k).
Qed.

Lemma lookup_fill_defaults names cfg k :
  fill_defaults names cfg !! k =
    match cfg !! k with
    | Some e => Some e
    | None => if decide (k ∈ names) then Some zero_TableCfgItem else None
    end.
Proof.
  unfold fill_defaults. revert cfg.
  induction names as [|n names IH]; intros cfg; cbn [foldl].
  - destruct (cfg !! k); [done|]. by rewrite decide_False by set_solver.
  - rewrite IH, lookup_fill_default.
    destruct (cfg !! k); [done|].
    destruct (decide (k = n)) as [->|Hne].
    + by rewrite decide_True by set_solver.
    + destruct (decide (k ∈ names)).
      * by rewrite decide_True by set_solver.
      * by rewrite decide_False by (intros [?|?]%elem_of_cons; done).
Qed.

Lemma lookup_mark_deprecated cfg name k :
  mark_deprecated cfg name !! k =
    if decide (k = name)
    then Some (set_IsDeprecated true (default zero_TableCfgItem (cfg !! k)))
    else cfg !! k.
Proof.
  unfold mark_deprecated. destruct (decide (k = name)) as [->|Hne].
  - rewrite lookup_insert_eq, lookup_fill_default.
    rewrite decide_True by done. by destruct (cfg !! name).
  - rewrite lookup_insert_ne, lookup_fill_default by done.
    rewrite decide_False by done. by destruct (cfg !! k).
Qed.

Lemma lookup_mark_all_deprecated names cfg k :
  mark_all_deprecated names cfg !! k =
    if decide (k ∈ names)
    then Some (set_IsDeprecated true (default zero_TableCfgItem (cfg !! k)))
    else cfg !! k.
Proof.
  unfold mark_all_deprecated. revert cfg.
  induction names as [|n names IH]; intros cfg; cbn [foldl].
  - by rewrite decide_False by set_solver.
  - rewrite IH, lookup_mark_deprecated.
    destruct (decide (k = n)) as [->|Hne].
    + rewrite (decide_True (P := n ∈ n :: names)) by set_solver.
      destruct (decide (n ∈ names)); done.
    + destruct (decide (k ∈ names)).
      * by rewrite decide_True by set_solver.
      * by rewrite decide_False by (intros [?|?]%elem_of_cons; done).
Qed.

Lemma fill_defaults_id names cfg :
  (∀ name, name ∈ names → is_Some (cfg !! name)) → fill_defaults names cfg = cfg.
Proof.
  intros H. apply map_eq. intros k. rewrite lookup_fill_defaults.
  destruct (cfg !! k) eqn:Hk; [done|].
  case_decide as Hin; [|done].
  apply H in Hin. rewrite Hk in Hin. by destruct Hin.
Qed.

Lemma mark_all_deprecated_id names cfg :
  (∀ name, name ∈ names → ∃ e, cfg !! name = Some e ∧ IsDeprecated e = true) →
  mark_all_deprecated names cfg = cfg.
Proof.
  intros H. apply map_eq. intros k. rewrite lookup_mark_all_deprecated.
  case_decide as Hin; [|done].
  destruct (H _ Hin) as (e & -> & He). simpl. by rewrite set_IsDeprecated_id.
Qed.

Lemma entries_named_lookup name cfg :
  entries_named name cfg = match cfg !! name with Some _ => 1%nat | None => 0%nat end.
Proof.
  unfold entries_named.
  induction cfg as [|k e cfg Hk Hfirst IH] using map_first_key_ind.
  - by rewrite map_to_list_empty.
  - rewrite map_to_list_insert_first_key by done.
    rewrite filter_cons. cbn [fst].
    destruct (decide (k = name)) as [->|Hne].
    + rewrite lookup_insert_eq. cbn [length]. by rewrite IH, Hk.
    + by rewrite lookup_insert_ne.
Qed.
End loops.

(** ** What [reinit] leaves in the variables *)

Section reinit_state.
Implicit Types (g : Globals) (c : Catalog) (name k : string).

Lemma tables_of_reinit g c :
  tables_of (reinit g) c =
    match c with
    | Chaindata => sort_SliceStable less (ChaindataTables g)
    | _ => tables_of g c
    end.
Proof. by destruct c. Qed.

Lemma deprecated_of_reinit g c : deprecated_of (reinit g) c = deprecated_of g c.
Proof. by destruct c. Qed.

Lemma elem_of_tables_of_reinit g c name :
  name ∈ tables_of (reinit g) c ↔ name ∈ tables_of g c.
Proof.
  rewrite tables_of_reinit. destruct c; try done.
  apply elem_of_sort_SliceStable.
Qed.

Lemma cfg_of_reinit g c :
  cfg_of (reinit g) c =
    mark_all_deprecated (deprecated_of g c)
      (fill_defaults (tables_of (reinit g) c) (cfg_of g c)).
Proof. by destruct c. Qed.

Lemma lookup_reinit g c k :
  cfg_of (reinit g) c !! k =
    if decide (k ∈ deprecated_of g c)
    then Some (set_IsDeprecated true (default zero_TableCfgItem (filled_entry g c k)))
    else filled_entry g c k.
Proof.
  rewrite cfg_of_reinit, lookup_mark_all_deprecated, lookup_fill_defaults.
  unfold filled_entry. destruct (cfg_of g c !! k); [done|].
  destruct (decide (k ∈ tables_of g c)) as [Hin|Hin].
  - by rewrite (decide_True (P := k ∈ tables_of (reinit g) c))
      by (by apply elem_of_tables_of_reinit).
  - by rewrite (decide_False (P := k ∈ tables_of (reinit g) c))
      by (by rewrite elem_of_tables_of_reinit).
Qed.

Lemma reinit_declared_is_Some g c name :
  name ∈ tables_of g c → is_Some (cfg_of (reinit g) c !! name).
Proof.
  intros Hin. rewrite lookup_reinit. destruct (decide _); [by eexists|].
  unfold filled_entry. destruct (cfg_of g c !! name); [by eexists|].
  rewrite (decide_True (P := name ∈ tables_of g c)) by done. by eexists.
Qed.

Lemma reinit_unconfigured g c name :
  name ∈ tables_of g c → cfg_of g c !! name = None →
  cfg_of (reinit g) c !! name =
    Some (if decide (name ∈ deprecated_of g c)
          then set_IsDeprecated true zero_TableCfgItem else zero_TableCfgItem).
Proof.
  intros Hin Hnone. rewrite lookup_reinit. unfold filled_entry.
  rewrite Hnone, (decide_True (P := name ∈ tables_of g c)) by done.
  by destruct (decide _).
Qed.

Lemma reinit_deprecated g name :
  name ∈ ChaindataDeprecatedTables g →
  ∃ e, ChaindataTablesCfg (reinit g) !! name = Some e ∧ IsDeprecated e = true.
Proof.
  intros Hin. pose proof (lookup_reinit g Chaindata name) as H.
  cbn [cfg_of deprecated_of] in H. rewrite decide_True in H by done.
  eexists. split; [exact H|done].
Qed.

Lemma elem_of_dom_reinit g name :
  name ∈ dom (ChaindataTablesCfg (reinit g)) ↔
    name ∈ ChaindataTables g ∨ name ∈ ChaindataDeprecatedTables g ∨
    is_Some (ChaindataTablesCfg g !! name).
Proof.
  rewrite elem_of_dom.
  pose proof (lookup_reinit g Chaindata name) as Hl.
  cbn [cfg_of deprecated_of tables_of] in Hl. rewrite Hl. clear Hl.
  unfold filled_entry. cbn [cfg_of tables_of].
  destruct (decide (name ∈ ChaindataDeprecatedTables g)) as [Hd|Hd].
  { split; [by right; left|by eexists]. }
  destruct (ChaindataTablesCfg g !! name) as [e|] eqn:He.
  { split; [by right; right; eexists|by eexists]. }
  destruct (decide (name ∈ ChaindataTables g)) as [Ht|Ht].
  { split; [by left|by eexists]. }
  split; [by intros [? [=]]|]. intros [?|[?|[? [=]]]]; done.
Qed.

Lemma reinit_existing g c name e :
  cfg_of g c !! name = Some e →
  cfg_of (reinit g) c !! name =
    Some (if decide (name ∈ deprecated_of g c) then set_IsDeprecated true e else e).
Proof.
  intros He. rewrite lookup_reinit. unfold filled_entry. rewrite He.
  by destruct (decide _).
Qed.

Lemma reinit_DBI_unassigned g c name e' :
  cfg_of (reinit g) c !! name = Some e' →
  DBI e' = match cfg_of g c !! name with Some e => DBI e | None => 0%N end.
Proof.
  rewrite lookup_reinit. unfold filled_entry.
  destruct (cfg_of g c !! name) as [e|].
  - destruct (decide _); intros [= <-]; done.
  - destruct (decide (name ∈ tables_of g c)), (decide (name ∈ deprecated_of g c));
      intros [= <-]; done.
Qed.

Lemma reinit_keeps_dup_lens g :
  (∀ c name e, cfg_of g c !! name = Some e → dup_lens_ok e) →
  ∀ c name e, cfg_of (reinit g) c !! name = Some e → dup_lens_ok e.
Proof.
  intros Hg c name e'. rewrite lookup_reinit. unfold filled_entry.
  destruct (cfg_of g c !! name) as [e|] eqn:He.
  - apply Hg in He.
    destruct (decide _); intros [= <-]; [|done].
    unfold dup_lens_ok in *. by destruct e.
  - destruct (decide (name ∈ tables_of g c)), (decide (name ∈ deprecated_of g c));
      intros [= <-]; unfold dup_lens_ok; cbn; done.
Qed.

Lemma cfg_of_reinit_idem g c : cfg_of (reinit (reinit g)) c = cfg_of (reinit g) c.
Proof.
  apply map_eq. intros k.
  rewrite (lookup_reinit (reinit g)), deprecated_of_reinit.
  unfold filled_entry at 1 2.
  destruct (decide (k ∈ tables_of (reinit g) c)) as [Hin|Hin].
  - apply (proj1 (elem_of_tables_of_reinit g c k)) in Hin.
    destruct (reinit_declared_is_Some g c k Hin) as [e He]. rewrite He.
    destruct (decide (k ∈ deprecated_of g c)) as [Hd|Hd]; [|done].
    rewrite lookup_reinit, decide_True in He by done.
    injection He as <-. done.
  - destruct (cfg_of (reinit g) c !! k) as [e|] eqn:He.
    + destruct (decide (k ∈ deprecated_of g c)) as [Hd|Hd]; [|done].
      rewrite lookup_reinit, decide_True in He by done.
      injection He as <-. done.
    + rewrite lookup_reinit in He.
      destruct (decide (k ∈ deprecated_of g c)); done.
Qed.

Lemma tables_of_reinit_idem g c :
  tables_of (reinit (reinit g)) c = tables_of (reinit g) c.
Proof.
  rewrite (tables_of_reinit (reinit g)). destruct c; try done.
  apply sort_SliceStable_idemp.
Qed.

Lemma Globals_ext g1 g2 :
  (∀ c, tables_of g1 c = tables_of g2 c) →
  ChaindataDeprecatedTables g1 = ChaindataDeprecatedTables g2 →
  (∀ c, cfg_of g1 c = cfg_of g2 c) →
  g1 = g2.
Proof.
  intros Ht Hd Hc.
  pose proof (Ht Chaindata). pose proof (Ht TxPool). pose proof (Ht Sentry).
  pose proof (Ht Downloader). pose proof (Ht Recon).
  pose proof (Hc Chaindata). pose proof (Hc TxPool). pose proof (Hc Sentry).
  pose proof (Hc Downloader). pose proof (Hc Recon).
  destruct g1, g2. simpl in *. congruence.
Qed.

Lemma reinit_idem g : reinit (reinit g) = reinit g.
Proof.
  apply Globals_ext.
  - apply tables_of_reinit_idem.
  - done.
  - apply cfg_of_reinit_idem.
Qed.
End reinit_state.

(** ** The declared catalogs *)

Section declared_state.
Lemma declared_deprecated_not_declared name :
  name ∈ ChaindataDeprecatedTables declared → name ∉ ChaindataTables declared.
Proof.
  cbn [ChaindataDeprecatedTables declared ChaindataDeprecatedTables_decl].
  intros Hin. repeat (apply elem_of_cons in Hin as [->|Hin]);
    [| |by apply not_elem_of_nil in Hin];
    apply (bool_decide_eq_false_1 (_ ∈ _)); by vm_compute.
Qed.

Lemma declared_deprecated_disjoint c name :
  name ∈ tables_of declared c → name ∉ deprecated_of declared c.
Proof.
  destruct c; cbn [deprecated_of]; try (intros _; apply not_elem_of_nil).
  intros Hin Hdep. by apply declared_deprecated_not_declared in Hdep.
Qed.

Lemma declared_configured_are_declared name :
  is_Some (ChaindataTablesCfg declared !! name) → name ∈ ChaindataTables declared.
Proof.
  intros [e He]. apply elem_of_list_to_map_2 in He.
  assert (Hall : Forall (λ p, p.1 ∈ ChaindataTables declared) ChaindataTablesCfg_entries).
  { apply (bool_decide_unpack _). by vm_compute. }
  rewrite Forall_forall in Hall. exact (Hall _ He).
Qed.

Lemma declared_dup_lens c name e :
  cfg_of declared c !! name = Some e → dup_lens_ok e.
Proof.
  destruct c;
    cbn [cfg_of declared ChaindataTablesCfg TxpoolTablesCfg SentryTablesCfg
         DownloaderTablesCfg ReconTablesCfg];
    try (by rewrite lookup_empty).
  intros He. apply elem_of_list_to_map_2 in He.
  assert (Hall : Forall (λ p, dup_lens_ok p.2) ChaindataTablesCfg_entries).
  { unfold ChaindataTablesCfg_entries.
    repeat (apply Forall_cons; split; [intros ?; cbn; lia|]). apply Forall_nil_2. }
  rewrite Forall_forall in Hall. exact (Hall _ He).
Qed.

Lemma iter_reinit_dup_lens n c name e :
  cfg_of (Nat.iter n reinit declared) c !! name = Some e → dup_lens_ok e.
Proof.
  revert c name e. induction n as [|n IH]; cbn [Nat.iter nat_rect].
  - apply declared_dup_lens.
  - by apply reinit_keeps_dup_lens.
Qed.
End declared_state.

(** ** Further facts about [sortBuckets] and [reinit] *)

(** [sortBuckets] touches [ChaindataTables] only. *)
Lemma sortBuckets_frame (g : Globals) (c : Catalog) :
  c ≠ Chaindata →
  tables_of (sortBuckets g) c = tables_of g c ∧
  cfg_of (sortBuckets g) c = cfg_of g c.
Proof. by destruct c. Qed.


(** In the shipped catalogs every [DBI] is 0 after initialisation. *)
Lemma init_DBI_zero (c : Catalog) (name : string) (e : TableCfgItem) :
  cfg_of init c !! name = Some e → DBI e = 0%N.
Proof.
  intros He. rewrite (reinit_DBI_unassigned declared c name e He).
  destruct (cfg_of declared c !! name) as [e0|] eqn:He0; [|done].
  destruct c;
    cbn [cfg_of declared ChaindataTablesCfg TxpoolTablesCfg SentryTablesCfg
         DownloaderTablesCfg ReconTablesCfg] in He0;
    try (by rewrite lookup_empty in He0).
  apply elem_of_list_to_map_2 in He0.
  assert (Hall : Forall (λ p, DBI p.2 = 0%N) ChaindataTablesCfg_entries).
  { unfold ChaindataTablesCfg_entries.
    repeat (apply Forall_cons; split; [done|]). apply Forall_nil_2. }
  rewrite Forall_forall in Hall. exact (Hall _ He0).
Qed.

(** A catalog with names [Beta, Alpha, Gamma] of which [Gamma] is deprecated:
    the list is sorted, every name has an entry, and only [Gamma] is flagged. *)
Example reinit_Beta_Alpha_Gamma :
  let g := mkGlobals ["Beta"; "Alpha"; "Gamma"] [] [] [] [] ["Gamma"] ∅ ∅ ∅ ∅ ∅ in
  ChaindataTables (reinit g) = ["Alpha"; "Beta"; "Gamma"] ∧
  ChaindataTablesCfg (reinit g) !! "Alpha" = Some zero_TableCfgItem ∧
  ChaindataTablesCfg (reinit g) !! "Beta" = Some zero_TableCfgItem ∧
  ChaindataTablesCfg (reinit g) !! "Gamma"
    = Some (set_IsDeprecated true zero_TableCfgItem).
Proof. by vm_compute. Qed.

(** * The claims *)

(** C1. Round trip of the DupSort codec: for a configuration entry with
    conversion enabled whose lengths satisfy [DupFromLen >= DupToLen >= 0],
    every key of length [DupFromLen] and every value are recovered by
    [decode] from the result of [encode]. *)
Theorem dupsort_round_trip (cfg : TableCfgItem) (key value : list byte) :
  AutoDupSortKeysConversion cfg = true →
  0 ≤ DupToLen cfg ≤ DupFromLen cfg →
  Z.of_nat (length key) = DupFromLen cfg →
  encode cfg key value ≫= (λ kv, decode cfg kv.1 kv.2) = Some (key, value).
Proof. apply decode_encode. Qed.

Lemma dupsort_round_trip_witness :
  let key := replicate 60 Byte.x2a in
  let value := [Byte.x01; Byte.x02] in
  encode PlainState_cfg key value ≫= (λ kv, decode PlainState_cfg kv.1 kv.2)
    = Some (key, value).
Proof.
  intros key value. apply (dupsort_round_trip PlainState_cfg key value).
  - reflexivity.
  - simpl. lia.
  - reflexivity.
Defined.

(** The round trip on the two shipped layouts, for all keys and values. *)
Lemma PlainState_round_trip (key value : list byte) :
  length key = 60%nat →
  encode PlainState_cfg key value ≫= (λ kv, decode PlainState_cfg kv.1 kv.2)
    = Some (key, value).
Proof. intros H. apply decode_encode; [done|simpl; lia|simpl; lia]. Qed.

Lemma HashedStorage_round_trip (key value : list byte) :
  length key = 72%nat →
  encode HashedStorage_cfg key value ≫= (λ kv, decode HashedStorage_cfg kv.1 kv.2)
    = Some (key, value).
Proof. intros H. apply decode_encode; [done|simpl; lia|simpl; lia]. Qed.

(** The round trip for every entry the registry holds after any number of
    initialisations. *)
Lemma registry_round_trip n c name cfg (key value : list byte) :
  cfg_of (Nat.iter n reinit declared) c !! name = Some cfg →
  AutoDupSortKeysConversion cfg = true →
  Z.of_nat (length key) = DupFromLen cfg →
  encode cfg key value ≫= (λ kv, decode cfg kv.1 kv.2) = Some (key, value).
Proof.
  intros Hcfg Hon Hlen. apply decode_encode; [done| |done].
  by apply (iter_reinit_dup_lens n c name cfg Hcfg).
Qed.

(** C2. The three cases of [encode]: identity when conversion is disabled;
    for a key of length [DupFromLen] (with [DupFromLen >= DupToLen >= 0]) the
    physical key is the first [DupToLen] bytes and the physical value is the
    rest of the key followed by the value; any other key length is passed
    through unchanged, without error. *)
Theorem encode_cases (cfg : TableCfgItem) (key value : list byte) :
  (AutoDupSortKeysConversion cfg = false →
     encode cfg key value = Some (key, value)) ∧
  (AutoDupSortKeysConversion cfg = true →
   Z.of_nat (length key) = DupFromLen cfg →
   0 ≤ DupToLen cfg ≤ DupFromLen cfg →
     encode cfg key value =
       Some (take (Z.to_nat (DupToLen cfg)) key,
             drop (Z.to_nat (DupToLen cfg)) key ++ value)) ∧
  (AutoDupSortKeysConversion cfg = true →
   Z.of_nat (length key) ≠ DupFromLen cfg →
     encode cfg key value = Some (key, value)).
Proof.
  split; [|split].
  - apply encode_disabled.
  - intros Hon Hlen Hlens. by apply encode_split.
  - intros _. apply encode_other_length.
Qed.

Lemma encode_cases_witness :
  encode (flags_only DupSort) [Byte.x01; Byte.x02] [Byte.x03]
    = Some ([Byte.x01; Byte.x02], [Byte.x03]) ∧
  encode PlainState_cfg (replicate 60 Byte.x2a) [Byte.x03]
    = Some (replicate 28 Byte.x2a, replicate 32 Byte.x2a ++ [Byte.x03]) ∧
  encode PlainState_cfg (replicate 20 Byte.x2a) [Byte.x03]
    = Some (replicate 20 Byte.x2a, [Byte.x03]).
Proof.
  split; [|split].
  - apply (proj1 (encode_cases (flags_only DupSort) [Byte.x01; Byte.x02] [Byte.x03])).
    reflexivity.
  - apply (proj1 (proj2 (encode_cases PlainState_cfg (replicate 60 Byte.x2a) [Byte.x03]))).
    + reflexivity.
    + reflexivity.
    + simpl. lia.
  - apply (proj2 (proj2 (encode_cases PlainState_cfg (replicate 20 Byte.x2a) [Byte.x03]))).
    + reflexivity.
    + simpl. lia.
Defined.

(** C3. Completeness after initialisation: in each of the five catalogs,
    every name of the table list has exactly one entry in the catalog's
    configuration map, and a name that had no entry in the declared map has
    the zero-value entry. *)
Theorem init_complete (c : Catalog) (name : string) :
  name ∈ tables_of init c →
  entries_named name (cfg_of init c) = 1%nat ∧
  (cfg_of declared c !! name = None →
   cfg_of init c !! name = Some zero_TableCfgItem).
Proof.
  intros Hin. apply (proj1 (elem_of_tables_of_reinit declared c name)) in Hin.
  unfold init. split.
  - rewrite entries_named_lookup.
    by destruct (reinit_declared_is_Some declared c name Hin) as [e ->].
  - intros Hnone. rewrite (reinit_unconfigured declared c name Hin Hnone).
    by rewrite decide_False by (by apply declared_deprecated_disjoint).
Qed.

Lemma init_complete_witness :
  entries_named Code (cfg_of init Chaindata) = 1%nat ∧
  (cfg_of declared Chaindata !! Code = None →
   cfg_of init Chaindata !! Code = Some zero_TableCfgItem).
Proof.
  apply (init_complete Chaindata Code).
  apply (bool_decide_unpack _). vm_compute. exact I.
Defined.

(** C4. Deprecation propagation: after [reinit], every name of
    [ChaindataDeprecatedTables] has an entry in [ChaindataTablesCfg] with
    [IsDeprecated = true], whatever was configured for it before. *)
Theorem deprecated_are_flagged (g : Globals) (name : string) :
  name ∈ ChaindataDeprecatedTables g →
  ∃ e, ChaindataTablesCfg (reinit g) !! name = Some e ∧ IsDeprecated e = true.
Proof. apply reinit_deprecated. Qed.

Lemma deprecated_are_flagged_witness :
  ChaindataTablesCfg declared !! Clique = None ∧
  ∃ e, ChaindataTablesCfg init !! Clique = Some e ∧ IsDeprecated e = true.
Proof.
  split.
  - vm_compute. reflexivity.
  - apply (deprecated_are_flagged declared Clique).
    apply (bool_decide_unpack _). vm_compute. exact I.
Defined.




(** C6. [reinit] is idempotent: a second run leaves every table list and
    every configuration map exactly as the first run produced them. *)
Theorem reinit_idempotent (g : Globals) : reinit (reinit g) = reinit g.
Proof. apply reinit_idem. Qed.

(** C7, as stated, fails: after initialisation the name ["AccountHistory"]
    sits at position 1 of the sorted [ChaindataTables] while the [DBI] of its
    entry is 0. *)
Lemma ordinals_not_assigned : ¬ ordinals_assigned init.
Proof.
  intros H.
  specialize (H Chaindata 1%nat AccountsHistory zero_TableCfgItem).
  assert (Hpos : tables_of init Chaindata !! 1%nat = Some AccountsHistory)
    by (vm_compute; reflexivity).
  assert (Hcfg : cfg_of init Chaindata !! AccountsHistory = Some zero_TableCfgItem)
    by (vm_compute; reflexivity).
  specialize (H Hpos Hcfg). discriminate H.
Qed.

(** C7, amended. [reinit] assigns no ordinal: the [DBI] of every entry found
    after it is the [DBI] the entry had before the call, and 0 when the call
    created the entry. *)
Theorem reinit_leaves_DBI (g : Globals) (c : Catalog) (name : string) (e' : TableCfgItem) :
  cfg_of (reinit g) c !! name = Some e' →
  DBI e' = match cfg_of g c !! name with Some e => DBI e | None => 0%N end.
Proof. apply reinit_DBI_unassigned. Qed.

Lemma reinit_leaves_DBI_witness :
  tables_of init Chaindata !! 1%nat = Some AccountsHistory ∧
  DBI zero_TableCfgItem =
    match cfg_of declared Chaindata !! AccountsHistory with
    | Some e => DBI e
    | None => 0%N
    end.
Proof.
  split.
  - vm_compute. reflexivity.
  - apply (reinit_leaves_DBI declared Chaindata AccountsHistory zero_TableCfgItem).
    vm_compute. reflexivity.
Defined.

(** C8. In every catalog's configuration map, as declared and after any
    number of initialisations, an entry with [AutoDupSortKeysConversion]
    enabled has [DupFromLen >= DupToLen >= 0]. *)
Theorem dup_lens_invariant (n : nat) (c : Catalog) (name : string) (e : TableCfgItem) :
  cfg_of (Nat.iter n reinit declared) c !! name = Some e →
  AutoDupSortKeysConversion e = true →
  DupFromLen e >= DupToLen e ∧ DupToLen e >= 0.
Proof.
  intros He Hon. pose proof (iter_reinit_dup_lens n c name e He Hon). lia.
Qed.

Lemma dup_lens_invariant_witness :
  (cfg_of init Chaindata !! PlainState = Some PlainState_cfg ∧
   cfg_of init Chaindata !! HashedStorage = Some HashedStorage_cfg) ∧
  (60 >= 28 ∧ 28 >= 0) ∧ (72 >= 40 ∧ 40 >= 0).
Proof.
  split; [split; vm_compute; reflexivity|]. split.
  - apply (dup_lens_invariant 1 Chaindata PlainState PlainState_cfg).
    + vm_compute. reflexivity.
    + reflexivity.
  - apply (dup_lens_invariant 1 Chaindata HashedStorage HashedStorage_cfg).
    + vm_compute. reflexivity.
    + reflexivity.
Defined.

(** C9. After initialisation the names configured in [ChaindataTablesCfg]
    strictly include the names of [ChaindataTables]: they are the table
    names together with [Clique] and [TransitionBlockKey], which are in no
    position of the table list and whose entries have [IsDeprecated = true]. *)
Theorem deprecated_outside_tables :
  ((list_to_set (ChaindataTables init) : gset string)
     ⊂ dom (ChaindataTablesCfg init)) ∧
  (dom (ChaindataTablesCfg init) =
     list_to_set (ChaindataTables init) ∪ ({[Clique]} ∪ {[TransitionBlockKey]})) ∧
  (Clique ∉ ChaindataTables init) ∧
  (TransitionBlockKey ∉ ChaindataTables init) ∧
  (∃ e, ChaindataTablesCfg init !! Clique = Some e ∧ IsDeprecated e = true) ∧
  (∃ e, ChaindataTablesCfg init !! TransitionBlockKey = Some e ∧ IsDeprecated e = true).
Proof.
  assert (Hclique : Clique ∉ ChaindataTables init).
  { unfold init. intros Hin.
    apply (elem_of_tables_of_reinit declared Chaindata Clique) in Hin.
    revert Hin. apply declared_deprecated_not_declared.
    apply (bool_decide_unpack _). by vm_compute. }
  assert (Htbk : TransitionBlockKey ∉ ChaindataTables init).
  { unfold init. intros Hin.
    apply (elem_of_tables_of_reinit declared Chaindata TransitionBlockKey) in Hin.
    revert Hin. apply declared_deprecated_not_declared.
    apply (bool_decide_unpack _). by vm_compute. }
  assert (Hdep : ∀ name, name ∈ ChaindataDeprecatedTables declared ↔
                         name = Clique ∨ name = TransitionBlockKey).
  { intros name.
    change (ChaindataDeprecatedTables declared) with [Clique; TransitionBlockKey].
    rewrite !elem_of_cons, elem_of_nil. tauto. }
  assert (Hdom : dom (ChaindataTablesCfg init) =
    list_to_set (ChaindataTables init) ∪ ({[Clique]} ∪ {[TransitionBlockKey]})).
  { apply set_eq. intros name. unfold init.
    rewrite elem_of_dom_reinit, elem_of_union, elem_of_list_to_set.
    rewrite (elem_of_tables_of_reinit declared Chaindata name : _ ∈ ChaindataTables _ ↔ _).
    rewrite elem_of_union, !elem_of_singleton, <- Hdep.
    split; [|tauto]. intros [?|[?|Hc]]; [tauto|tauto|].
    left. by apply declared_configured_are_declared. }
  split; [|split; [exact Hdom|split; [exact Hclique|split; [exact Htbk|split]]]].
  - rewrite Hdom. split.
    + apply union_subseteq_l.
    + intros Hsub. apply Hclique.
      apply (elem_of_list_to_set (C := gset string)), Hsub.
      apply elem_of_union_r, elem_of_union_l, elem_of_singleton. done.
  - apply (reinit_deprecated declared Clique), Hdep. by left.
  - apply (reinit_deprecated declared TransitionBlockKey), Hdep. by right.
Qed.

(** C10. Frame of [reinit]: an entry that exists before the call still
    exists after it with the same [Flags], [AutoDupSortKeysConversion],
    [DupFromLen], [DupToLen] and [DBI]; its [IsDeprecated] is [true] when the
    name is in the catalog's deprecated list and is unchanged otherwise. *)
Theorem reinit_frame (g : Globals) (c : Catalog) (name : string) (e : TableCfgItem) :
  cfg_of g c !! name = Some e →
  ∃ e', cfg_of (reinit g) c !! name = Some e' ∧
        Flags e' = Flags e ∧
        AutoDupSortKeysConversion e' = AutoDupSortKeysConversion e ∧
        DupFromLen e' = DupFromLen e ∧
        DupToLen e' = DupToLen e ∧
        DBI e' = DBI e ∧
        (name ∈ deprecated_of g c → IsDeprecated e' = true) ∧
        (name ∉ deprecated_of g c → IsDeprecated e' = IsDeprecated e).
Proof.
  intros He. eexists. split; [by apply reinit_existing|].
  destruct (decide (name ∈ deprecated_of g c)); cbn; repeat split; done.
Qed.

Lemma reinit_frame_witness :
  cfg_of declared Chaindata !! PlainState = Some PlainState_cfg ∧
  ∃ e', cfg_of init Chaindata !! PlainState = Some e' ∧
        Flags e' = DupSort ∧
        AutoDupSortKeysConversion e' = true ∧
        DupFromLen e' = 60 ∧
        DupToLen e' = 28 ∧
        DBI e' = 0%N ∧
        (PlainState ∈ deprecated_of declared Chaindata → IsDeprecated e' = true) ∧
        (PlainState ∉ deprecated_of declared Chaindata → IsDeprecated e' = false).
Proof.
  split.
  - vm_compute. reflexivity.
  - apply (reinit_frame declared Chaindata PlainState PlainState_cfg).
    vm_compute. reflexivity.
Defined.

(** * Further properties of the registry code *)

(** ** Helper lemmas *)

Lemma strings_Compare_eq a b : strings_Compare a b = 0 → a = b.
Proof.
  unfold strings_Compare. destruct (String.compare a b) eqn:H; try done.
  intros _. by apply String.compare_eq_iff.
Qed.

Lemma strings_Compare_refl a : strings_Compare a a = 0.
Proof.
  unfold strings_Compare. pose proof (String.compare_antisym a a) as H.
  destruct (String.compare a a); simpl in H; done.
Qed.

Lemma bytewise_lt_le_ne a b : bytewise_lt a b ↔ bytewise_le a b ∧ a ≠ b.
Proof.
  unfold bytewise_lt, bytewise_le. split.
  - intros H. split; [lia|]. intros ->. rewrite strings_Compare_refl in H. lia.
  - intros [H Hne]. destruct (decide (strings_Compare a b = 0)) as [H0|H0]; [|lia].
    by apply strings_Compare_eq in H0.
Qed.

Lemma less_bytewise_lt a b : less a b = true ↔ bytewise_lt a b.
Proof. unfold less, bytewise_lt. apply Z.ltb_lt. Qed.

Lemma ascending_NoDup_strict l : ascending l → NoDup l → strictly_ascending l.
Proof.
  unfold ascending, strictly_ascending. induction 1 as [|x l Hl IH Hx]; intros Hnd.
  - constructor.
  - apply NoDup_cons in Hnd as [Hx' Hnd]. constructor; [by apply IH|].
    rewrite Forall_forall in *. intros y Hy. apply bytewise_lt_le_ne.
    split; [by apply Hx|]. by intros ->.
Qed.

Lemma normalised_reinit g : normalised (reinit g).
Proof.
  split; [|split].
  - apply sort_SliceStable_ascending.
  - intros c name Hin. apply reinit_declared_is_Some.
    by apply (proj1 (elem_of_tables_of_reinit g c name)).
  - intros name Hin. by apply reinit_deprecated.
Qed.

Lemma reinit_normalised_id g : normalised g → reinit g = g.
Proof.
  intros (Hasc & Hcomplete & Hdep). apply Globals_ext.
  - intros c. rewrite tables_of_reinit. destruct c; try done.
    by apply sort_SliceStable_ascending_id.
  - done.
  - intros c. apply map_eq. intros k. rewrite lookup_reinit. unfold filled_entry.
    destruct (decide (k ∈ deprecated_of g c)) as [Hd|Hd].
    + destruct c; try by apply not_elem_of_nil in Hd.
      destruct (Hdep k Hd) as (e & He & Hfl). cbn [cfg_of]. rewrite He. cbn.
      by rewrite set_IsDeprecated_id.
    + destruct (cfg_of g c !! k) eqn:Hk; [done|].
      destruct (decide (k ∈ tables_of g c)) as [Hin|Hin]; [|done].
      apply Hcomplete in Hin. rewrite Hk in Hin. by destruct Hin.
Qed.

Lemma size_union_le (X Y : gset string) : (size (X ∪ Y) ≤ size X + size Y)%nat.
Proof.
  rewrite size_union_alt.
  assert (size (Y ∖ X) ≤ size Y)%nat.
  { apply subseteq_size. intros x Hx. by apply elem_of_difference in Hx as [? _]. }
  lia.
Qed.

Lemma size_list_to_set_le (l : list string) :
  (size (list_to_set l : gset string) ≤ length l)%nat.
Proof.
  induction l as [|x l IH]; cbn [list_to_set foldr length].
  - by rewrite size_empty.
  - pose proof (size_union_le {[x]} (list_to_set l)) as H.
    rewrite size_singleton in H. lia.
Qed.

Lemma elem_of_dom_cfg_reinit g c name :
  name ∈ dom (cfg_of (reinit g) c) ↔
    name ∈ dom (cfg_of g c) ∨ name ∈ tables_of g c ∨ name ∈ deprecated_of g c.
Proof.
  rewrite !elem_of_dom, lookup_reinit. unfold filled_entry.
  destruct (decide (name ∈ deprecated_of g c)) as [Hd|Hd].
  { split; [by right; right|by eexists]. }
  destruct (cfg_of g c !! name) as [e|] eqn:He.
  { split; [by left; eexists|by eexists]. }
  destruct (decide (name ∈ tables_of g c)) as [Ht|Ht].
  { split; [by right; left|by eexists]. }
  split; [by intros [? [=]]|]. intros [[? [=]]|[?|?]]; done.
Qed.



(** ** Extra properties *)

(** X1. [reinit] removes no entry and adds entries only for names of the
    catalog's table list or deprecated list: a name is configured after the
    call exactly when it was configured before or is in one of the two
    lists. *)
Theorem reinit_dom (g : Globals) (c : Catalog) (name : string) :
  name ∈ dom (cfg_of (reinit g) c) ↔
    name ∈ dom (cfg_of g c) ∨ name ∈ tables_of g c ∨ name ∈ deprecated_of g c.
Proof. apply elem_of_dom_cfg_reinit. Qed.

(** X2. The states [reinit] leaves unchanged are exactly the normalised
    ones: [ChaindataTables] ascending, an entry for every listed name of
    every catalog, and a flagged entry for every deprecated name. *)
Theorem reinit_fixed_point (g : Globals) : reinit g = g ↔ normalised g.
Proof.
  split.
  - intros H. rewrite <- H. apply normalised_reinit.
  - apply reinit_normalised_id.
Qed.

(** X3. The configuration maps [reinit] produces depend only on which names
    occur in the table lists and in the deprecated list, not on their order
    or on repetitions. *)
Theorem reinit_order_independent (g1 g2 : Globals) :
  (∀ c name, name ∈ tables_of g1 c ↔ name ∈ tables_of g2 c) →
  (∀ name, name ∈ ChaindataDeprecatedTables g1 ↔ name ∈ ChaindataDeprecatedTables g2) →
  (∀ c, cfg_of g1 c = cfg_of g2 c) →
  ∀ c, cfg_of (reinit g1) c = cfg_of (reinit g2) c.
Proof.
  intros Ht Hd Hc c. apply map_eq. intros k. rewrite !lookup_reinit.
  unfold filled_entry. rewrite (Hc c).
  pose proof (Ht c k) as E1.
  assert (E2 : k ∈ deprecated_of g1 c ↔ k ∈ deprecated_of g2 c)
    by (destruct c; try done; apply Hd).
  destruct (decide (k ∈ deprecated_of g1 c)), (decide (k ∈ deprecated_of g2 c));
    destruct (decide (k ∈ tables_of g1 c)), (decide (k ∈ tables_of g2 c));
    try tauto; done.
Qed.

Lemma reinit_order_independent_witness :
  let g1 := mkGlobals ["Beta"; "Alpha"; "Gamma"] [] [] [] [] ["Gamma"; "Old"] ∅ ∅ ∅ ∅ ∅ in
  let g2 := mkGlobals ["Gamma"; "Beta"; "Alpha"; "Beta"] [] [] [] [] ["Old"; "Gamma"] ∅ ∅ ∅ ∅ ∅ in
  cfg_of (reinit g1) Chaindata = cfg_of (reinit g2) Chaindata.
Proof.
  intros g1 g2. apply (reinit_order_independent g1 g2).
  - intros c name. destruct c; simpl; [|reflexivity..].
    rewrite !elem_of_cons, !elem_of_nil. tauto.
  - intros name. simpl. rewrite !elem_of_cons, !elem_of_nil. tauto.
  - intros c. destruct c; reflexivity.
Defined.

(** X4. When no name occurs twice in [ChaindataTables], [sortBuckets] leaves
    it without repetition and in strictly ascending byte-wise order, so
    every name has one position. *)
Theorem sortBuckets_strict (g : Globals) :
  NoDup (ChaindataTables g) →
  NoDup (ChaindataTables (sortBuckets g)) ∧
  strictly_ascending (ChaindataTables (sortBuckets g)).
Proof.
  intros Hnd.
  assert (Hnd' : NoDup (ChaindataTables (sortBuckets g))).
  { cbn [sortBuckets ChaindataTables]. by rewrite sort_SliceStable_perm. }
  split; [done|].
  apply ascending_NoDup_strict; [apply sort_SliceStable_ascending|done].
Qed.

Lemma sortBuckets_strict_witness :
  NoDup (ChaindataTables (sortBuckets declared)) ∧
  strictly_ascending (ChaindataTables (sortBuckets declared)).
Proof.
  apply (sortBuckets_strict declared).
  apply (bool_decide_unpack _). vm_compute. exact I.
Defined.

(** X5. [sortBuckets] changes nothing exactly when [ChaindataTables] is
    already in ascending order. *)
Theorem sortBuckets_fixed_point (g : Globals) :
  sortBuckets g = g ↔ ascending (ChaindataTables g).
Proof.
  split.
  - intros H. rewrite <- H. apply sort_SliceStable_ascending.
  - intros H. destruct g. unfold sortBuckets. cbn in *.
    by rewrite sort_SliceStable_ascending_id.
Qed.

(** X6. An entry that [reinit] creates is the zero value: default flags, no
    DupSort conversion, zero lengths and [DBI]; it is flagged deprecated
    exactly when its name is in the deprecated list, and its name comes from
    the table list or the deprecated list. *)
Theorem reinit_creates_only_defaults
  (g : Globals) (c : Catalog) (name : string) (e' : TableCfgItem) :
  cfg_of g c !! name = None →
  cfg_of (reinit g) c !! name = Some e' →
  set_IsDeprecated false e' = zero_TableCfgItem ∧
  (IsDeprecated e' = true ↔ name ∈ deprecated_of g c) ∧
  (name ∈ tables_of g c ∨ name ∈ deprecated_of g c).
Proof.
  intros Hnone. rewrite lookup_reinit. unfold filled_entry. rewrite Hnone.
  destruct (decide (name ∈ deprecated_of g c)) as [Hd|Hd];
    destruct (decide (name ∈ tables_of g c)) as [Ht|Ht]; cbn;
    intros [= <-]; cbn; repeat split; try done; auto.
Qed.

Lemma reinit_creates_only_defaults_witness :
  set_IsDeprecated false (set_IsDeprecated true zero_TableCfgItem) = zero_TableCfgItem ∧
  (IsDeprecated (set_IsDeprecated true zero_TableCfgItem) = true ↔
     Clique ∈ deprecated_of declared Chaindata) ∧
  (Clique ∈ tables_of declared Chaindata ∨ Clique ∈ deprecated_of declared Chaindata).
Proof.
  apply (reinit_creates_only_defaults declared Chaindata Clique).
  - vm_compute. reflexivity.
  - vm_compute. reflexivity.
Defined.

(** X7. The comparison [sortBuckets] hands to [sort.SliceStable] is a strict
    total order on names: irreflexive, asymmetric, transitive, and two names
    neither of which is less than the other are equal. *)
Theorem less_strict_total_order (a b c : string) :
  less a a = false ∧
  (less a b = true → less b a = false) ∧
  (less a b = true → less b c = true → less a c = true) ∧
  (less a b = false → less b a = false → a = b).
Proof.
  split; [|split; [|split]].
  - unfold less. by rewrite strings_Compare_refl.
  - intros Hab. apply less_true in Hab as Hle.
    destruct (less b a) eqn:Hba; [|done].
    apply less_true in Hba.
    pose proof (anti_symm bytewise_le a b Hle Hba) as ->.
    unfold less in Hab. by rewrite strings_Compare_refl in Hab.
  - rewrite !less_bytewise_lt, !bytewise_lt_le_ne. intros [H1 N1] [H2 N2].
    split; [by etrans|]. intros ->.
    by pose proof (anti_symm bytewise_le b c H2 H1).
  - intros H1%less_false H2%less_false. by apply (anti_symm bytewise_le).
Qed.

Lemma less_strict_total_order_witness :
  less "CodeR" "Code" = false ∧ less "Code" "Header" = true ∧ "Code" = "Code".
Proof.
  split; [|split].
  - apply (proj1 (proj2 (less_strict_total_order "Code" "CodeR" "Header"))).
    reflexivity.
  - apply (proj1 (proj2 (proj2 (less_strict_total_order "Code" "CodeR" "Header")))).
    + reflexivity.
    + reflexivity.
  - apply (proj2 (proj2 (proj2 (less_strict_total_order "Code" "Code" "Code")))).
    + reflexivity.
    + reflexivity.
Defined.



(** X9. [reinit] reorders [ChaindataTables] only: the names of every table
    list are kept (none added, none dropped), the lists of the other
    catalogs keep their order, and the deprecated list is untouched. *)
Theorem reinit_keeps_names (g : Globals) (c : Catalog) :
  tables_of (reinit g) c ≡ₚ tables_of g c ∧
  (c ≠ Chaindata → tables_of (reinit g) c = tables_of g c) ∧
  ChaindataDeprecatedTables (reinit g) = ChaindataDeprecatedTables g.
Proof.
  rewrite tables_of_reinit. split; [|split].
  - destruct c; try done. apply sort_SliceStable_perm.
  - by destruct c.
  - done.
Qed.

Lemma reinit_keeps_names_witness :
  tables_of (reinit declared) TxPool
    = [RecentLocalTransaction; PoolTransaction; PoolInfo].
Proof.
  apply (proj1 (proj2 (reinit_keeps_names declared TxPool))). discriminate.
Defined.

(** X10. [reinit] never shrinks a configuration map, and it grows it by at
    most one entry per name of the table list and of the deprecated list. *)
Theorem reinit_size_bounds (g : Globals) (c : Catalog) :
  (size (cfg_of g c) ≤ size (cfg_of (reinit g) c)
     ≤ size (cfg_of g c) + length (tables_of g c) + length (deprecated_of g c))%nat.
Proof.
  rewrite <- !size_dom.
  assert (Hdom : dom (cfg_of (reinit g) c) =
    dom (cfg_of g c) ∪ (list_to_set (tables_of g c) ∪ list_to_set (deprecated_of g c))).
  { apply set_eq. intros name.
    rewrite elem_of_dom_cfg_reinit, !elem_of_union, !elem_of_list_to_set. done. }
  rewrite Hdom. split.
  - apply subseteq_size, union_subseteq_l.
  - pose proof (size_union_le (dom (cfg_of g c))
      (list_to_set (tables_of g c) ∪ list_to_set (deprecated_of g c))).
    pose proof (size_union_le (list_to_set (tables_of g c))
      (list_to_set (deprecated_of g c))).
    pose proof (size_list_to_set_le (tables_of g c)).
    pose proof (size_list_to_set_le (deprecated_of g c)).
    lia.
Qed.

(** X11. Running [sortBuckets] before or after [reinit] adds nothing:
    [reinit] absorbs it on both sides. *)
Theorem reinit_absorbs_sortBuckets (g : Globals) :
  reinit (sortBuckets g) = reinit g ∧ sortBuckets (reinit g) = reinit g.
Proof.
  split.
  - unfold reinit. destruct g. cbn [sortBuckets ChaindataTables TxPoolTables
      SentryTables DownloaderTables ReconTables ChaindataDeprecatedTables
      ChaindataTablesCfg TxpoolTablesCfg SentryTablesCfg DownloaderTablesCfg
      ReconTablesCfg].
    by rewrite sort_SliceStable_idemp.
  - unfold sortBuckets at 1. destruct g. unfold reinit.
    cbn [sortBuckets ChaindataTables TxPoolTables
      SentryTables DownloaderTables ReconTables ChaindataDeprecatedTables
      ChaindataTablesCfg TxpoolTablesCfg SentryTablesCfg DownloaderTablesCfg
      ReconTablesCfg].
    by rewrite sort_SliceStable_idemp.
Qed.
